(** * Assembly of a target sequence from trimmed basic units

    A shallow embedding of [playground/main.py]: the class [BasicUnit], the
    feasibility test [Solution.can_match] and the dynamic program
    [Solution.solve], followed by the properties of the specification.

    Python values are rendered as follows.
    - [str] is [string]; a slice [s[j:i]] with [j <= i <= len(s)] is
      [substring j (i - j) s].
    - [int] is [Z] (unbounded).
    - The two tables hold either an [int] or [float('inf')]: the type [num].
      Adding an [int] to [float('inf')] gives [float('inf')] again when the
      [int] converts to a float; beyond the range of a double Python raises
      [OverflowError] instead.  [solve] is the sweep without that error, and
      [solve_checked] the sweep with it; the two agree whenever
      [solve_checked] returns (lemma [solve_checked_returns]), which it does
      as soon as every cost converts (lemma [solve_checked_safe]).
    - A list updated by index is a [list] with stdpp's insert; the indices
      the program uses are always in range (lemma [solve_pass_wf]).
    - The object [self] is a record threaded through [solve]. *)

From Stdlib Require Import ZArith Ascii String List Lia.
From stdpp Require Import base list.

Local Open Scope string_scope.
Local Open Scope Z_scope.

(** ** Numbers of the tables: an integer or [float('inf')] *)

Inductive num : Type :=
| Int (z : Z)
| Inf.

#[global] Instance num_inhabited : Inhabited num := populate Inf.

(** [a + z] for a table entry [a] and an [int] [z], when the addition
    returns; [py_add] below is the addition with its error. *)
Definition num_add (a : num) (z : Z) : num :=
  match a with
  | Int x => Int (x + z)
  | Inf => Inf
  end.

(** [a < b] *)
Definition num_ltb (a b : num) : bool :=
  match a, b with
  | Int x, Int y => x <? y
  | Int _, Inf => true
  | Inf, _ => false
  end.

(** [a == b] *)
Definition num_eqb (a b : num) : bool :=
  match a, b with
  | Int x, Int y => x =? y
  | Inf, Inf => true
  | _, _ => false
  end.

(** ** class BasicUnit *)

Module BasicUnit.

Record t : Type := new {
  sequence : string;
  cost : Z;
  dmax : Z
}.

(** [self.length = len(sequence)] *)
Definition length (u : t) : nat := String.length (sequence u).

End BasicUnit.

Abbreviation BasicUnit := BasicUnit.t.

(** ** class Solution *)

Record Solution : Type := mkSolution {
  target_sequence : string;
  basic_units : list BasicUnit;
  n : nat;
  m : nat;
  dp_cost : list num;
  dp_units : list num
}.

(** [Solution.__init__] *)
Definition init (target_sequence : string) (basic_units : list BasicUnit)
  : Solution :=
  let n := String.length target_sequence in
  {| target_sequence := target_sequence;
     basic_units := basic_units;
     n := n;
     m := List.length basic_units;
     dp_cost := <[0%nat := Int 0]> (replicate (n + 1) Inf);
     dp_units := <[0%nat := Int 0]> (replicate (n + 1) Inf) |}.

(** The [while] loop of [can_match] and the test that follows it.  The two
    cursors are kept as the suffixes still to be read: [useq] is
    [unit.sequence[i:]] and [tsub] is [target_subsequence[j:]]. *)
Fixpoint can_match_scan (useq tsub : string) (deletions dmax : Z)
  {struct useq} : bool :=
  match useq, tsub with
  | String a useq', String b tsub' =>
      if Ascii.eqb a b
      then can_match_scan useq' tsub' deletions dmax
      else
        let deletions := deletions + 1 in
        if deletions >? dmax then false
        else can_match_scan useq' tsub deletions dmax
  | _, _ =>
      let remaining := Z.of_nat (String.length tsub) in
      if deletions + remaining >? dmax then false else true
  end.

(** [Solution.can_match]; it does not read [self]. *)
Definition can_match (unit : BasicUnit) (target_subsequence : string) : bool :=
  can_match_scan (BasicUnit.sequence unit) target_subsequence 0
    (BasicUnit.dmax unit).

(** The body of the innermost loop of [solve], for one [unit], one end
    position [i] and one start position [j]. *)
Definition relax (unit : BasicUnit) (i j : nat) (self : Solution) : Solution :=
  let target_subseq := substring j (i - j) (target_sequence self) in
  if can_match unit target_subseq then
    let prev_cost := dp_cost self !!! j in
    let prev_units := dp_units self !!! j in
    if num_ltb (num_add prev_cost (BasicUnit.cost unit)) (dp_cost self !!! i)
    then
      {| target_sequence := target_sequence self;
         basic_units := basic_units self;
         n := n self;
         m := m self;
         dp_cost := <[i := num_add prev_cost (BasicUnit.cost unit)]> (dp_cost self);
         dp_units := <[i := num_add prev_units 1]> (dp_units self) |}
    else if num_eqb (num_add prev_cost (BasicUnit.cost unit)) (dp_cost self !!! i)
            && num_ltb (num_add prev_units 1) (dp_units self !!! i)
    then
      {| target_sequence := target_sequence self;
         basic_units := basic_units self;
         n := n self;
         m := m self;
         dp_cost := dp_cost self;
         dp_units := <[i := num_add prev_units 1]> (dp_units self) |}
    else self
  else self.

(** [for j in range(start, i)] with [start = max(0, i - len(unit.sequence))];
    on [nat] the subtraction already stops at 0. *)
Definition solve_unit (i : nat) (self : Solution) (unit : BasicUnit) : Solution :=
  let start := Nat.max 0 (i - String.length (BasicUnit.sequence unit)) in
  fold_left (fun self j => relax unit i j self) (seq start (i - start)) self.

(** [for unit in self.basic_units] *)
Definition solve_pos (self : Solution) (i : nat) : Solution :=
  fold_left (solve_unit i) (basic_units self) self.

(** [for i in range(1, self.n + 1)] *)
Definition solve_pass (self : Solution) : Solution :=
  fold_left solve_pos (seq 1 (n self)) self.

(** The value returned by [solve]: the pair [(None, None)] or the pair of
    the last entries of the two tables. *)
Definition solve_result (self : Solution) : option num * option num :=
  if num_eqb (dp_cost self !!! n self) Inf
  then (None, None)
  else (Some (dp_cost self !!! n self), Some (dp_units self !!! n self)).

(** [Solution.solve]: the object after the call, and the value returned. *)
Definition solve (self : Solution) : Solution * (option num * option num) :=
  let self := solve_pass self in
  (self, solve_result self).

(** What a caller does: [Solution(target, units).solve()]. *)
Definition run (target : string) (catalog : list BasicUnit)
  : option num * option num :=
  snd (solve (init target catalog)).

(** The two catalogs of [main]. *)
Definition example1_units : list BasicUnit :=
  [ BasicUnit.new "A" 2 0; BasicUnit.new "C" 3 0; BasicUnit.new "G" 4 0;
    BasicUnit.new "T" 5 0; BasicUnit.new "ACGT" 10 1;
    BasicUnit.new "CGTA" 12 1 ].

Definition example2_units : list BasicUnit :=
  [ BasicUnit.new "A" 2 0; BasicUnit.new "C" 3 0; BasicUnit.new "G" 4 0;
    BasicUnit.new "T" 5 0; BasicUnit.new "ACGT" 10 0 ].

(** ** The vocabulary of the specification *)

(** [slice] is obtained from the sequence of [unit] by deleting symbols, and
    no more than [unit.dmax] of them: nothing inserted, replaced or moved. *)
Definition trimmable (unit : BasicUnit) (slice : string) : Prop :=
  list_ascii_of_string slice
    `sublist_of` list_ascii_of_string (BasicUnit.sequence unit)
  /\ Z.of_nat (String.length (BasicUnit.sequence unit))
     - Z.of_nat (String.length slice) <= BasicUnit.dmax unit.

(** An assembly lists, from left to right, the units used and the slice of
    the target each one produces. *)
Definition assembly : Type := list (BasicUnit * string).

Definition assembled (a : assembly) : string :=
  foldr (fun p rest => String.append (snd p) rest) "" a.

Definition total_cost (a : assembly) : Z :=
  foldr (fun p rest => BasicUnit.cost (fst p) + rest) 0 a.

Definition unit_count (a : assembly) : Z := Z.of_nat (List.length a).

(** An exact assembly: every unit comes from the catalog, every slice is a
    non-empty piece the unit can be trimmed to, and the pieces put end to
    end are the target. *)
Definition exact_assembly (target : string) (catalog : list BasicUnit)
    (a : assembly) : Prop :=
  Forall (fun p => fst p ∈ catalog /\ snd p <> "" /\ trimmable (fst p) (snd p)) a
  /\ assembled a = target.



(** ** The tables as pairs, for the proofs about the sweep *)

(** The pair [(dp_cost[k], dp_units[k])]. *)
Definition entry (self : Solution) (k : nat) : num * num :=
  (dp_cost self !!! k, dp_units self !!! k).

(** The pair [(prev_cost + unit.cost, prev_units + 1)] read at [j]. *)
Definition candidate (self : Solution) (unit : BasicUnit) (j : nat) : num * num :=
  (num_add (dp_cost self !!! j) (BasicUnit.cost unit),
   num_add (dp_units self !!! j) 1).

(** Cost first, number of units second. *)
Definition lex_ltb (a b : num * num) : bool :=
  num_ltb (fst a) (fst b) || (num_eqb (fst a) (fst b) && num_ltb (snd a) (snd b)).

(** The two tables have [n + 1] cells. *)
Definition wf (self : Solution) : Prop :=
  List.length (dp_cost self) = S (n self)
  /\ List.length (dp_units self) = S (n self).

(** The slices tried at end position [i], in the order of the two inner
    loops. *)
Definition tries (i : nat) (units : list BasicUnit) : list (BasicUnit * nat) :=
  flat_map
    (fun unit =>
       let start := Nat.max 0 (i - String.length (BasicUnit.sequence unit)) in
       map (pair unit) (seq start (i - start)))
    units.

(** No slice ending at [i] improves on the entry at [i]. *)
Definition settled (self : Solution) (i : nat) : Prop :=
  forall p, p ∈ tries i (basic_units self) ->
    can_match (fst p) (substring (snd p) (i - snd p) (target_sequence self)) = true ->
    lex_ltb (candidate self (fst p) (snd p)) (entry self i) = false.

(** What a step at position [i] leaves alone: the inputs, and every cell
    of the tables but the one at [i]. *)
Definition frame (i : nat) (self self' : Solution) : Prop :=
  target_sequence self' = target_sequence self
  /\ basic_units self' = basic_units self
  /\ n self' = n self
  /\ m self' = m self
  /\ forall k, k <> i -> entry self' k = entry self k.

(** The innermost body applied to one element of [tries]. *)
Definition relax_try (i : nat) (self : Solution) (p : BasicUnit * nat) : Solution :=
  relax (fst p) i (snd p) self.

(** The catalogs on which [can_match] shows its defect. *)
Definition catalog_A_AC : list BasicUnit :=
  [ BasicUnit.new "A" 5 0; BasicUnit.new "AC" 1 0 ].

Definition catalog_AC : list BasicUnit := [ BasicUnit.new "AC" 1 0 ].

(** ** Assemblies as the sweep sees them *)

(** A piece the sweep can use: a unit of the catalog with a non-empty slice,
    no longer than the unit, that [can_match] accepts. *)
Definition accepted_piece (catalog : list BasicUnit) (p : BasicUnit * string)
  : Prop :=
  fst p ∈ catalog
  /\ snd p <> ""
  /\ (String.length (snd p) <= String.length (BasicUnit.sequence (fst p)))%nat
  /\ can_match (fst p) (snd p) = true.

(** Pieces that put end to end are the target. *)
Definition accepted_assembly (target : string) (catalog : list BasicUnit)
    (a : assembly) : Prop :=
  Forall (accepted_piece catalog) a /\ assembled a = target.

(** Pieces that put end to end are the first [k] symbols of the target. *)
Definition covers (target : string) (catalog : list BasicUnit) (k : nat)
    (a : assembly) : Prop :=
  Forall (accepted_piece catalog) a
  /\ exists rest, String.append (assembled a) rest = target
                  /\ String.length (assembled a) = k.

(** The table entry an assembly stands for. *)
Definition score (a : assembly) : num * num :=
  (Int (total_cost a), Int (unit_count a)).

(** An entry at [k] is either unreached or the score of pieces covering the
    first [k] symbols. *)
Definition reached (target : string) (catalog : list BasicUnit) (k : nat)
    (e : num * num) : Prop :=
  e = (Inf, Inf) \/ exists a, covers target catalog k a /\ e = score a.

(** What holds of the object from [__init__] to the end of [solve]. *)
Definition sweep_inv (target : string) (catalog : list BasicUnit)
    (self : Solution) : Prop :=
  target_sequence self = target
  /\ basic_units self = catalog
  /\ n self = String.length target
  /\ wf self
  /\ entry self 0 = (Int 0, Int 0)
  /\ forall k, (k <= n self)%nat -> reached target catalog k (entry self k).

(** ** The sweep with Python's one error *)

(** What a call does: it returns a value or raises [OverflowError], the only
    exception the code can meet (on [float('inf') + int]). *)
Inductive outcome (A : Type) : Type :=
| Returns (a : A)
| OverflowError.

Arguments Returns {A} a.
Arguments OverflowError {A}.

(** The integers Python converts to a float: those that round to a finite
    double. *)
Definition float_convertible (z : Z) : bool :=
  Z.abs z <? 2 ^ 1024 - 2 ^ 970.

(** [a + z] as Python evaluates it.  Two [int]s add exactly; with
    [float('inf')] on the left the [int] is converted to a float first, and
    that conversion raises when the [int] is too large. *)
Definition py_add (a : num) (z : Z) : outcome num :=
  match a with
  | Int x => Returns (Int (x + z))
  | Inf => if float_convertible z then Returns Inf else OverflowError
  end.

(** A [for] loop whose body may raise: the loop stops at the first error. *)
Fixpoint for_each {A : Type} (body : Solution -> A -> outcome Solution)
    (l : list A) (self : Solution) : outcome Solution :=
  match l with
  | [] => Returns self
  | x :: l =>
      match body self x with
      | Returns self => for_each body l self
      | OverflowError => OverflowError
      end
  end.

(** The body of the innermost loop with its error.  The first addition
    evaluated is [prev_cost + unit.cost] in the test of the [if]; when it
    raises, so does [solve].  When it returns, the additions that follow are
    the same one again and [prev_units + 1], which never raises (lemma
    [py_add_one]), and the step is [relax]. *)
Definition relax_checked (unit : BasicUnit) (i j : nat) (self : Solution)
  : outcome Solution :=
  let target_subseq := substring j (i - j) (target_sequence self) in
  if can_match unit target_subseq then
    let prev_cost := dp_cost self !!! j in
    match py_add prev_cost (BasicUnit.cost unit) with
    | Returns _ => Returns (relax unit i j self)
    | OverflowError => OverflowError
    end
  else Returns self.

Definition solve_unit_checked (i : nat) (self : Solution) (unit : BasicUnit)
  : outcome Solution :=
  let start := Nat.max 0 (i - String.length (BasicUnit.sequence unit)) in
  for_each (fun self j => relax_checked unit i j self) (seq start (i - start)) self.

Definition solve_pos_checked (self : Solution) (i : nat) : outcome Solution :=
  for_each (solve_unit_checked i) (basic_units self) self.

Definition solve_pass_checked (self : Solution) : outcome Solution :=
  for_each solve_pos_checked (seq 1 (n self)) self.

(** [Solution.solve] with its error: the object after the call and the
    value returned, or [OverflowError]. *)
Definition solve_checked (self : Solution)
  : outcome (Solution * (option num * option num)) :=
  match solve_pass_checked self with
  | Returns self => Returns (self, solve_result self)
  | OverflowError => OverflowError
  end.

(** [Solution(target, units).solve()] with its error. *)
Definition run_checked (target : string) (catalog : list BasicUnit)
  : outcome (option num * option num) :=
  match solve_checked (init target catalog) with
  | Returns r => Returns (snd r)
  | OverflowError => OverflowError
  end.

(** Every cost of the catalog converts to a float. *)
Definition costs_convertible (catalog : list BasicUnit) : Prop :=
  Forall (fun u => float_convertible (BasicUnit.cost u) = true) catalog.

(** A unit that cannot make [solve] raise: its cost converts to a float, or
    its [dmax] is negative and it matches nothing. *)
Definition unit_safe (u : BasicUnit) : Prop :=
  float_convertible (BasicUnit.cost u) = true \/ BasicUnit.dmax u < 0.

(** * Properties *)

(** ** The two examples of [main] *)

(** C8: on the target ACGT with the five units of the second example,
    [solve] returns cost 10 with 1 unit. *)
Theorem example2_result :
  run "ACGT" example2_units = (Some (Int 10), Some (Int 1)).
Proof. vm_compute. reflexivity. Qed.

(** The first example has an exact assembly of cost 22 made of 3 units. *)
Lemma example1_assembly_22 :
  let a := [ (BasicUnit.new "ACGT" 10 1, "ACGT");
             (BasicUnit.new "ACGT" 10 1, "ACGT");
             (BasicUnit.new "A" 2 0, "A") ] in
  exact_assembly "ACGTACGTA" example1_units a
  /\ total_cost a = 22 /\ unit_count a = 3.
Proof.
  cbv zeta. split; [split|split; reflexivity]; [|reflexivity].
  repeat constructor; simpl; try discriminate; try lia.
Qed.

(** C4, as stated: on the target ACGTACGTA with the six units of the first
    example the returned pair is not (23, 5). *)
Lemma example1_not_23_5 :
  run "ACGTACGTA" example1_units <> (Some (Int 23), Some (Int 5)).
Proof. vm_compute. discriminate. Qed.

(** C4, amended: on the target ACGTACGTA with the six units of the first
    example, [solve] returns cost 22 with 3 units. *)
Theorem example1_result :
  run "ACGTACGTA" example1_units = (Some (Int 22), Some (Int 3)).
Proof. vm_compute. reflexivity. Qed.

(** ** The empty target *)

Lemma run_empty_target (catalog : list BasicUnit) :
  run "" catalog = (Some (Int 0), Some (Int 0)).
Proof. reflexivity. Qed.

(** C7: for the empty target and any non-empty catalog, [solve] returns
    cost 0 and unit count 0. *)
Theorem empty_target_zero (catalog : list BasicUnit) :
  catalog <> [] -> run "" catalog = (Some (Int 0), Some (Int 0)).
Proof. intros _. apply run_empty_target. Qed.

Lemma empty_target_zero_witness :
  example1_units <> [] /\ run "" example1_units = (Some (Int 0), Some (Int 0)).
Proof.
  split; [discriminate | apply (empty_target_zero example1_units); discriminate].
Defined.

(** ** The feasibility test *)

Lemma length_list_ascii_of_string (s : string) :
  List.length (list_ascii_of_string s) = String.length s.
Proof. induction s as [|c s IH]; simpl; [reflexivity | now rewrite IH]. Qed.

Section CanMatch.

Implicit Types (useq tsub : string) (d dmax : Z).

(** When the slice is exhausted the loop stops at once. *)
Lemma can_match_scan_empty useq d dmax :
  can_match_scan useq "" d dmax = negb (d >? dmax).
Proof.
  destruct useq; simpl; rewrite Z.add_0_r; destruct (d >? dmax); reflexivity.
Qed.

(** A larger budget keeps every test of the loop on the same side. *)
Lemma can_match_scan_mono useq : forall tsub d dmax,
  can_match_scan useq tsub d dmax = true ->
  can_match_scan useq tsub d (dmax + 1) = true.
Proof.
  induction useq as [|a useq IH]; intros tsub d dmax.
  - simpl. destruct (Z.gtb_spec (d + Z.of_nat (String.length tsub)) dmax);
      [discriminate|].
    intros _. destruct (Z.gtb_spec (d + Z.of_nat (String.length tsub)) (dmax + 1));
      [lia | reflexivity].
  - destruct tsub as [|b tsub].
    + rewrite !can_match_scan_empty.
      destruct (Z.gtb_spec d dmax); [discriminate|].
      intros _. destruct (Z.gtb_spec d (dmax + 1)); [lia | reflexivity].
    + simpl. destruct (Ascii.eqb a b); [apply IH|].
      destruct (Z.gtb_spec (d + 1) dmax); [discriminate|].
      destruct (Z.gtb_spec (d + 1) (dmax + 1)); [lia|]. apply IH.
Qed.

(** Completeness of the scan: a slice that is a subsequence of what is
    left of the unit is accepted as soon as the symbols already deleted
    and the difference of the lengths fit the budget. *)
Lemma can_match_scan_complete useq : forall tsub d dmax,
  list_ascii_of_string tsub `sublist_of` list_ascii_of_string useq ->
  0 <= d ->
  d + (Z.of_nat (String.length useq) - Z.of_nat (String.length tsub)) <= dmax ->
  can_match_scan useq tsub d dmax = true.
Proof.
  induction useq as [|a useq IH]; intros tsub d dmax Hsub Hd Hle.
  - simpl in Hsub. apply sublist_nil_r in Hsub.
    destruct tsub; [|discriminate]. simpl in *.
    destruct (Z.gtb_spec (d + Z.of_nat 0) dmax); [lia | reflexivity].
  - destruct tsub as [|b tsub].
    + rewrite can_match_scan_empty.
      simpl String.length in Hle.
      destruct (Z.gtb_spec d dmax); [lia | reflexivity].
    + pose proof (sublist_length _ _ Hsub) as Hlen.
      rewrite !length_list_ascii_of_string in Hlen.
      simpl in Hsub. simpl String.length in *. simpl.
      destruct (Ascii.eqb_spec a b) as [->|Hne].
      * apply IH; [|lia|lia].
        apply sublist_cons_r in Hsub as [Hsub|(l & Heq & Hsub)].
        -- transitivity (b :: list_ascii_of_string tsub); [|exact Hsub].
           apply sublist_cons. reflexivity.
        -- injection Heq as <-. exact Hsub.
      * apply sublist_cons_r in Hsub as [Hsub|(l & Heq & Hsub)];
          [|congruence].
        pose proof (sublist_length _ _ Hsub) as Hlen'.
        simpl in Hlen'. rewrite !length_list_ascii_of_string in Hlen'.
        destruct (Z.gtb_spec (d + 1) dmax); [lia|].
        apply IH; [exact Hsub|lia|]. simpl String.length. lia.
Qed.

End CanMatch.

(** Every slice the unit can really be trimmed to is accepted. *)
Lemma can_match_complete (unit : BasicUnit) (slice : string) :
  trimmable unit slice -> can_match unit slice = true.
Proof.
  intros [Hsub Hle]. apply can_match_scan_complete; [exact Hsub|lia|lia].
Qed.

(** C10: for every unit with a non-negative [dmax], whatever its sequence,
    [can_match] accepts the empty slice. *)
Theorem can_match_empty_slice (unit : BasicUnit) :
  0 <= BasicUnit.dmax unit -> can_match unit "" = true.
Proof.
  intros H. unfold can_match. rewrite can_match_scan_empty.
  destruct (Z.gtb_spec 0 (BasicUnit.dmax unit)); [lia | reflexivity].
Qed.

Lemma can_match_empty_slice_witness :
  let unit := BasicUnit.new "ACGT" 10 1 in
  (Z.of_nat (BasicUnit.length unit) > BasicUnit.dmax unit)
  /\ can_match unit "" = true.
Proof.
  split; [reflexivity | apply (can_match_empty_slice (BasicUnit.new "ACGT" 10 1))].
  simpl. lia.
Defined.

(** C5: a slice accepted for a unit is still accepted for the same unit
    with [dmax] increased by 1. *)
Theorem can_match_dmax_mono (unit : BasicUnit) (slice : string) :
  can_match unit slice = true ->
  can_match (BasicUnit.new (BasicUnit.sequence unit) (BasicUnit.cost unit)
               (BasicUnit.dmax unit + 1)) slice = true.
Proof. unfold can_match. simpl. apply can_match_scan_mono. Qed.

Lemma can_match_dmax_mono_witness :
  can_match (BasicUnit.new "ACGT" 10 (1 + 1)) "CGT" = true.
Proof.
  apply (can_match_dmax_mono (BasicUnit.new "ACGT" 10 1) "CGT"). reflexivity.
Defined.

(** C2, at two inputs: [can_match] accepts the slice A for the unit AC with
    [dmax = 0], and the slice CC for the unit AA with [dmax = 4], and
    neither slice can be obtained from its unit by deleting at most [dmax]
    symbols. *)
Theorem can_match_accepts_untrimmable :
  (can_match (BasicUnit.new "AC" 1 0) "A" = true
   /\ ~ trimmable (BasicUnit.new "AC" 1 0) "A")
  /\ (can_match (BasicUnit.new "AA" 1 4) "CC" = true
      /\ ~ trimmable (BasicUnit.new "AA" 1 4) "CC").
Proof.
  split; (split; [reflexivity|]); intros [Hsub Hle].
  - simpl in Hle. lia.
  - simpl in Hsub.
    apply sublist_cons_r in Hsub as [Hsub|(l & Heq & _)]; [|discriminate].
    apply sublist_cons_r in Hsub as [Hsub|(l & Heq & _)]; [|discriminate].
    apply sublist_nil_r in Hsub. discriminate.
Qed.

(** ** The order on table entries *)

Section Order.

Implicit Types a b c : num * num.

Lemma num_eqb_eq (x y : num) : num_eqb x y = true <-> x = y.
Proof.
  destruct x as [x|], y as [y|]; simpl; split; intros H;
    try discriminate; try reflexivity.
  - apply Z.eqb_eq in H. now subst.
  - injection H as ->. apply Z.eqb_refl.
Qed.

Lemma num_ltb_irrefl (x : num) : num_ltb x x = false.
Proof. destruct x; simpl; [apply Z.ltb_irrefl | reflexivity]. Qed.

Lemma num_ltb_trans (x y z : num) :
  num_ltb x y = true -> num_ltb y z = true -> num_ltb x z = true.
Proof.
  destruct x, y, z; simpl; try discriminate; try reflexivity.
  rewrite !Z.ltb_lt. lia.
Qed.

Lemma lex_ltb_irrefl a : lex_ltb a a = false.
Proof.
  unfold lex_ltb. rewrite !num_ltb_irrefl. simpl. apply andb_false_r.
Qed.

Lemma lex_ltb_true a b :
  lex_ltb a b = true <->
  num_ltb (fst a) (fst b) = true
  \/ (fst a = fst b /\ num_ltb (snd a) (snd b) = true).
Proof.
  unfold lex_ltb. rewrite orb_true_iff, andb_true_iff, num_eqb_eq. tauto.
Qed.

Lemma lex_ltb_trans a b c :
  lex_ltb a b = true -> lex_ltb b c = true -> lex_ltb a c = true.
Proof.
  rewrite !lex_ltb_true. intros [Hab|[Eab Hab]] [Hbc|[Ebc Hbc]].
  - left. eapply num_ltb_trans; eassumption.
  - left. now rewrite <- Ebc.
  - left. now rewrite Eab.
  - right. split; [congruence|]. eapply num_ltb_trans; eassumption.
Qed.

(** An entry that a candidate does not beat is not beaten either once
    lowered to something that beats it. *)
Lemma lex_ltb_lower a b c :
  lex_ltb c a = false -> lex_ltb b a = true -> lex_ltb c b = false.
Proof.
  intros Hca Hba. destruct (lex_ltb c b) eqn:Hcb; [|reflexivity].
  rewrite (lex_ltb_trans _ _ _ Hcb Hba) in Hca. discriminate.
Qed.

End Order.

(** ** One step of the innermost loop *)

Section Relax.

Variables (unit : BasicUnit) (i j : nat) (self : Solution).

Let slice := substring j (i - j) (target_sequence self).

Lemma relax_frame : frame i self (relax unit i j self).
Proof.
  unfold frame, relax, entry.
  destruct (can_match _ _); [|tauto].
  destruct (num_ltb _ _); simpl.
  { repeat split; try reflexivity. intros k Hk.
    now rewrite !list_lookup_total_insert_ne by congruence. }
  destruct (_ && _); simpl; [|tauto].
  repeat split; try reflexivity. intros k Hk.
  now rewrite !list_lookup_total_insert_ne by congruence.
Qed.

Lemma relax_wf : wf self -> wf (relax unit i j self).
Proof.
  unfold wf, relax. intros [Hc Hu].
  destruct (can_match _ _); [|tauto].
  destruct (num_ltb _ _); simpl; [now rewrite !length_insert|].
  destruct (_ && _); simpl; [now rewrite !length_insert | tauto].
Qed.

(** The entry at [i] becomes the candidate when the slice is accepted and
    the candidate is smaller, and stays as it is otherwise. *)
Lemma relax_entry :
  wf self -> (i <= n self)%nat ->
  entry (relax unit i j self) i =
    if can_match unit slice && lex_ltb (candidate self unit j) (entry self i)
    then candidate self unit j
    else entry self i.
Proof.
  intros [Hc Hu] Hi. unfold relax, entry, candidate, lex_ltb. fold slice. simpl.
  destruct (can_match unit slice); simpl; [|reflexivity].
  destruct (num_ltb (num_add (dp_cost self !!! j) (BasicUnit.cost unit))
              (dp_cost self !!! i)) eqn:Hlt; simpl.
  { now rewrite !list_lookup_total_insert_eq by lia. }
  destruct (num_eqb _ _) eqn:Heq; simpl; [|reflexivity].
  destruct (num_ltb (num_add (dp_units self !!! j) 1) _) eqn:Hlt'; simpl;
    [|reflexivity].
  apply num_eqb_eq in Heq.
  rewrite list_lookup_total_insert_eq by lia. now rewrite Heq.
Qed.

(** A step whose candidate is not smaller changes nothing. *)
Lemma relax_id :
  (can_match unit slice = true ->
   lex_ltb (candidate self unit j) (entry self i) = false) ->
  relax unit i j self = self.
Proof.
  unfold relax, lex_ltb, candidate, entry. fold slice. simpl.
  destruct (can_match unit slice); [|reflexivity].
  intros H. specialize (H eq_refl). apply orb_false_elim in H as [-> ->].
  reflexivity.
Qed.

(** After the step the candidate does not beat the entry at [i]. *)
Lemma relax_bounds :
  wf self -> (i <= n self)%nat -> j <> i ->
  can_match unit slice = true ->
  lex_ltb (candidate self unit j) (entry (relax unit i j self) i) = false.
Proof.
  intros Hwf Hi Hj Hm. rewrite relax_entry by assumption. rewrite Hm. simpl.
  destruct (lex_ltb (candidate self unit j) (entry self i)) eqn:Hlt;
    [apply lex_ltb_irrefl | exact Hlt].
Qed.

(** Whatever did not beat the entry at [i] before does not beat it after. *)
Lemma relax_lowers (c : num * num) :
  wf self -> (i <= n self)%nat ->
  lex_ltb c (entry self i) = false ->
  lex_ltb c (entry (relax unit i j self) i) = false.
Proof.
  intros Hwf Hi Hc. rewrite relax_entry by assumption.
  destruct (can_match unit slice); simpl; [|exact Hc].
  destruct (lex_ltb (candidate self unit j) _) eqn:Hlt; [|exact Hc].
  eapply lex_ltb_lower; eassumption.
Qed.

End Relax.

Lemma candidate_frame (i j : nat) (unit : BasicUnit) (self self' : Solution) :
  frame i self self' -> j <> i ->
  candidate self' unit j = candidate self unit j.
Proof.
  intros (_ & _ & _ & _ & He) Hj. specialize (He j Hj).
  unfold entry in He. injection He as Hc Hu. unfold candidate.
  now rewrite Hc, Hu.
Qed.

Lemma frame_refl (i : nat) (self : Solution) : frame i self self.
Proof. unfold frame. tauto. Qed.

Lemma frame_trans (i : nat) (s1 s2 s3 : Solution) :
  frame i s1 s2 -> frame i s2 s3 -> frame i s1 s3.
Proof.
  intros (Ht & Hb & Hn & Hm & He) (Ht' & Hb' & Hn' & Hm' & He').
  unfold frame. repeat split; try congruence.
  intros k Hk. now rewrite He', He.
Qed.

(** ** One end position *)

Lemma fold_left_map_pair {A B C : Type} (f : A -> C -> A) (h : B -> C)
    (l : list B) (a : A) :
  fold_left f (map h l) a = fold_left (fun a x => f a (h x)) l a.
Proof. revert a. induction l as [|x l IH]; intros a; simpl; [reflexivity | apply IH]. Qed.

(** The two inner loops run the body over [tries], in order. *)
Lemma solve_pos_tries (self : Solution) (i : nat) :
  solve_pos self i = fold_left (relax_try i) (tries i (basic_units self)) self.
Proof.
  unfold solve_pos, tries. generalize (basic_units self) as units. revert self.
  intros self units. revert self.
  induction units as [|unit units IH]; intros self; simpl; [reflexivity|].
  rewrite fold_left_app, <- IH. f_equal.
  unfold solve_unit. now rewrite fold_left_map_pair.
Qed.

(** Every slice tried at [i] starts before [i]. *)
Lemma tries_start_lt (i : nat) (units : list BasicUnit) (p : BasicUnit * nat) :
  p ∈ tries i units -> (snd p < i)%nat.
Proof.
  unfold tries. rewrite list_elem_of_In, in_flat_map.
  intros (unit & _ & Hin). apply in_map_iff in Hin as (j & <- & Hj).
  apply in_seq in Hj. simpl. lia.
Qed.

Section Position.

Variable i : nat.

(** The state after any run of tries at [i]. *)
Lemma relax_tries_spec (l : list (BasicUnit * nat)) : forall self,
  wf self -> (i <= n self)%nat ->
  (forall p, p ∈ l -> (snd p < i)%nat) ->
  let self' := fold_left (relax_try i) l self in
  wf self' /\ frame i self self'
  /\ (forall c, lex_ltb c (entry self i) = false ->
                lex_ltb c (entry self' i) = false)
  /\ (forall p, p ∈ l ->
        can_match (fst p)
          (substring (snd p) (i - snd p) (target_sequence self)) = true ->
        lex_ltb (candidate self (fst p) (snd p)) (entry self' i) = false).
Proof.
  induction l as [|q l IH]; intros self Hwf Hi Hlt; simpl.
  - split; [exact Hwf|]. split; [apply frame_refl|].
    split; [intros c Hc; exact Hc|].
    intros p Hp. inversion Hp.
  - pose proof (relax_frame (fst q) i (snd q) self) as Hfr.
    pose proof (relax_wf (fst q) i (snd q) self Hwf) as Hwf1.
    assert (Hq : (snd q < i)%nat) by (apply Hlt; left).
    destruct Hfr as (Ht & Hb & Hn & Hm & He).
    destruct (IH (relax_try i self q)) as (Hwf' & Hfr' & Hlow & Hdone).
    { exact Hwf1. }
    { unfold relax_try. lia. }
    { intros p Hp. apply Hlt. now right. }
    split; [exact Hwf'|]. split.
    { eapply frame_trans; [|exact Hfr']. unfold frame, relax_try. tauto. }
    split.
    { intros c Hc. apply Hlow. now apply relax_lowers. }
    intros p Hp Hmatch. apply elem_of_cons in Hp as [->|Hp].
    + apply Hlow. apply relax_bounds; try assumption. lia.
    + assert (Hpi : (snd p < i)%nat) by (apply Hlt; now right).
      rewrite <- (candidate_frame i (snd p) (fst p) self (relax_try i self q))
        by (unfold frame, relax_try; first [tauto | lia]).
      apply Hdone; [exact Hp|]. unfold relax_try at 1. now rewrite Ht.
Qed.

(** After the sweep of position [i] no slice ending there improves on the
    entry, and nothing else has moved. *)
Lemma solve_pos_spec (self : Solution) :
  wf self -> (i <= n self)%nat ->
  wf (solve_pos self i) /\ frame i self (solve_pos self i)
  /\ settled (solve_pos self i) i.
Proof.
  intros Hwf Hi. rewrite solve_pos_tries.
  destruct (relax_tries_spec (tries i (basic_units self)) self Hwf Hi)
    as (Hwf' & Hfr & _ & Hdone).
  { intros p. apply tries_start_lt. }
  split; [exact Hwf'|]. split; [exact Hfr|].
  intros p Hp Hmatch.
  pose proof Hfr as (Ht & Hb & _).
  rewrite Hb in Hp. rewrite Ht in Hmatch.
  pose proof (tries_start_lt _ _ _ Hp) as Hlt.
  rewrite (candidate_frame i (snd p) (fst p) self) by (assumption || lia).
  now apply Hdone.
Qed.

(** A settled position is left as it is by its sweep. *)
Lemma solve_pos_settled (self : Solution) :
  settled self i -> solve_pos self i = self.
Proof.
  intros Hs. rewrite solve_pos_tries. unfold settled in Hs.
  revert Hs. generalize (tries i (basic_units self)) as l.
  induction l as [|p l IH]; intros Hs; simpl; [reflexivity|].
  unfold relax_try at 2. rewrite relax_id.
  - apply IH. intros q Hq. apply Hs. now right.
  - apply Hs. left.
Qed.

End Position.

(** A sweep at a later position keeps an earlier position settled. *)
Lemma settled_frame (i k : nat) (self self' : Solution) :
  frame k self self' -> (i < k)%nat -> settled self i -> settled self' i.
Proof.
  intros Hfr Hik Hs p Hp Hmatch.
  pose proof Hfr as (Ht & Hb & _ & _ & He).
  rewrite Hb in Hp. rewrite Ht in Hmatch.
  pose proof (tries_start_lt _ _ _ Hp) as Hlt.
  rewrite (candidate_frame k (snd p) (fst p) self) by (assumption || lia).
  rewrite He by lia. now apply Hs.
Qed.

(** ** The whole sweep *)

Lemma init_wf (target : string) (catalog : list BasicUnit) :
  wf (init target catalog).
Proof.
  unfold wf, init. simpl. rewrite !length_insert, !length_replicate. lia.
Qed.

(** The sweep up to position [k]: the tables keep their size, the inputs
    are untouched and every position up to [k] is settled. *)
Lemma solve_prefix_spec (self : Solution) (k : nat) :
  wf self -> (k <= n self)%nat ->
  let self' := fold_left solve_pos (seq 1 k) self in
  wf self' /\ n self' = n self
  /\ (forall i, (1 <= i <= k)%nat -> settled self' i).
Proof.
  intros Hwf. induction k as [|k IH]; intros Hk; cbv zeta.
  - split; [exact Hwf|]. split; [reflexivity|]. intros i Hi. lia.
  - rewrite seq_S, fold_left_app. cbn [fold_left Nat.add].
    destruct IH as (Hwf' & Hn & Hs); [lia|].
    set (mid := fold_left solve_pos (seq 1 k) self) in *.
    destruct (solve_pos_spec (S k) mid Hwf') as (Hwf2 & Hfr & Hnew); [lia|].
    split; [exact Hwf2|]. split.
    { destruct Hfr as (_ & _ & Hn' & _). congruence. }
    intros i Hi. destruct (Nat.eq_dec i (S k)) as [->|Hne]; [exact Hnew|].
    apply (settled_frame i (S k) mid); [exact Hfr|lia|]. apply Hs. lia.
Qed.

(** The indices used by the sweep stay within the tables. *)
Lemma solve_pass_wf (self : Solution) :
  wf self -> wf (solve_pass self) /\ n (solve_pass self) = n self.
Proof.
  intros Hwf. unfold solve_pass.
  destruct (solve_prefix_spec self (n self) Hwf) as (H1 & H2 & _); [lia|].
  split; assumption.
Qed.

Lemma solve_pass_settled (self : Solution) (i : nat) :
  wf self -> (1 <= i <= n self)%nat -> settled (solve_pass self) i.
Proof.
  intros Hwf Hi. unfold solve_pass.
  destruct (solve_prefix_spec self (n self) Hwf) as (_ & _ & H); [lia|].
  now apply H.
Qed.

(** On tables where every position is settled the sweep changes nothing. *)
Lemma solve_pass_fixed (self : Solution) :
  (forall i, (1 <= i <= n self)%nat -> settled self i) ->
  solve_pass self = self.
Proof.
  intros Hs. unfold solve_pass.
  assert (H : forall l, (forall i, In i l -> settled self i) ->
                        fold_left solve_pos l self = self).
  { induction l as [|i l IH]; intros Hl; simpl; [reflexivity|].
    rewrite solve_pos_settled by (apply Hl; now left).
    apply IH. intros i' Hi'. apply Hl. now right. }
  apply H. intros i Hi. apply in_seq in Hi. apply Hs. lia.
Qed.

(** Calling [solve] again on the object it has just worked on gives the
    same object and the same answer. *)
Lemma solve_again (self : Solution) :
  wf self -> solve (fst (solve self)) = solve self.
Proof.
  intros Hwf. unfold solve. simpl.
  destruct (solve_pass_wf self Hwf) as (Hwf' & Hn).
  rewrite (solve_pass_fixed (solve_pass self)); [reflexivity|].
  intros i Hi. apply solve_pass_settled; [exact Hwf | lia].
Qed.

Lemma solve_iter_wf (self : Solution) (k : nat) :
  wf self -> wf (Nat.iter k (fun s => fst (solve s)) self).
Proof.
  intros Hwf. induction k as [|k IH]; [exact Hwf|].
  rewrite Nat.iter_succ. now apply solve_pass_wf.
Qed.

Lemma solve_iter_result (self : Solution) (k : nat) :
  wf self ->
  solve (Nat.iter k (fun s => fst (solve s)) self) = solve self.
Proof.
  intros Hwf. induction k as [|k IH]; [reflexivity|].
  rewrite Nat.iter_succ, solve_again by now apply solve_iter_wf. exact IH.
Qed.

(** C9: the answer of [solve] is a function of the target and the catalog
    alone: two runs on equal inputs return equal results, and the tables
    kept in the object carry nothing over, since any number of earlier
    calls of [solve] on the same object leaves the answer of the next call
    what it is on a fresh object. *)
Theorem solve_deterministic (target target' : string)
    (catalog catalog' : list BasicUnit) (k : nat) :
  target = target' -> catalog = catalog' ->
  run target catalog = run target' catalog'
  /\ snd (solve (Nat.iter k (fun s => fst (solve s)) (init target catalog)))
     = run target' catalog'.
Proof.
  intros <- <-. split; [reflexivity|].
  rewrite solve_iter_result by apply init_wf. reflexivity.
Qed.

Lemma solve_deterministic_witness :
  run "ACGT" example2_units = run "ACGT" example2_units
  /\ snd (solve (Nat.iter 2 (fun s => fst (solve s)) (init "ACGT" example2_units)))
     = run "ACGT" example2_units.
Proof.
  apply (solve_deterministic "ACGT" "ACGT" example2_units example2_units 2);
    reflexivity.
Defined.

(** ** Where the sweep trusts [can_match] *)

(** The exact assemblies of a target of one symbol are the single units that
    can be trimmed to that symbol. *)
Lemma exact_assembly_one_symbol (c : ascii) (catalog : list BasicUnit)
    (a : assembly) :
  exact_assembly (String c "") catalog a ->
  exists unit, a = [(unit, String c "")] /\ unit ∈ catalog
               /\ trimmable unit (String c "").
Proof.
  intros [Hall Hcat]. destruct a as [|[unit slice] a]; [discriminate|].
  apply Forall_cons_1 in Hall as [(Hin & Hne & Htrim) Hall]. simpl in *.
  destruct slice as [|c' slice]; [congruence|].
  simpl in Hcat. injection Hcat as -> Hrest.
  destruct slice; [|discriminate]. simpl in Hrest.
  destruct a as [|[unit' slice'] a].
  - exists unit. split; [reflexivity|]. split; assumption.
  - apply Forall_cons_1 in Hall as [(_ & Hne' & _) _]. simpl in *.
    destruct slice'; [congruence | discriminate].
Qed.

(** C1, at the target A with the units A (cost 5, dmax 0) and AC (cost 1,
    dmax 0): [solve] returns cost 1 with 1 unit, while the unit A alone is an
    exact assembly and every exact assembly costs 5 and has 1 unit. *)
Theorem solve_below_minimum :
  run "A" catalog_A_AC = (Some (Int 1), Some (Int 1))
  /\ exact_assembly "A" catalog_A_AC [(BasicUnit.new "A" 5 0, "A")]
  /\ (forall a, exact_assembly "A" catalog_A_AC a ->
                 total_cost a = 5 /\ unit_count a = 1).
Proof.
  split; [reflexivity|]. split.
  - split; [|reflexivity]. repeat constructor; simpl; try discriminate; lia.
  - intros a Ha. apply exact_assembly_one_symbol in Ha as (unit & -> & Hin & Hsub & Hle).
    unfold catalog_A_AC in Hin.
    apply elem_of_cons in Hin as [->|Hin]; [split; reflexivity|].
    apply elem_of_cons in Hin as [->|Hin]; [simpl in Hle; lia|].
    inversion Hin.
Qed.

(** C3, at the target A with the single unit AC (cost 1, dmax 0): [solve]
    returns cost 1 with 1 unit although no exact assembly exists. *)
Theorem solve_answers_without_assembly :
  run "A" catalog_AC = (Some (Int 1), Some (Int 1))
  /\ ~ exists a, exact_assembly "A" catalog_AC a.
Proof.
  split; [reflexivity|]. intros [a Ha].
  apply exact_assembly_one_symbol in Ha as (unit & _ & Hin & Hsub & Hle).
  unfold catalog_AC in Hin.
  apply elem_of_cons in Hin as [->|Hin]; [simpl in Hle; lia | inversion Hin].
Qed.

(** ** Inputs the specification calls malformed *)




(** * Further properties of the code *)

(** ** What [can_match] accepts *)

(** X1: every slice that can be obtained from the sequence of a unit by deleting
    at most [dmax] of its symbols is accepted by [can_match]. *)
Theorem can_match_accepts_trimmable (unit : BasicUnit) (slice : string) :
  trimmable unit slice -> can_match unit slice = true.
Proof. exact (can_match_complete unit slice). Qed.

Lemma can_match_accepts_trimmable_witness :
  can_match (BasicUnit.new "ACGT" 10 1) "AGT" = true.
Proof.
  apply (can_match_accepts_trimmable (BasicUnit.new "ACGT" 10 1) "AGT").
  split; [|simpl; lia]. simpl.
  apply sublist_skip, sublist_cons, sublist_skip, sublist_skip, sublist_nil.
Defined.

Lemma string_prefix_nil_r (s : string) : String.prefix s "" = true -> s = "".
Proof. destruct s; [reflexivity | discriminate]. Qed.

Lemma string_prefix_cons (a b : ascii) (s u : string) :
  String.prefix (String a s) (String b u) = Ascii.eqb b a && String.prefix s u.
Proof.
  simpl. destruct (ascii_dec a b) as [->|Hne].
  - now rewrite Ascii.eqb_refl.
  - destruct (Ascii.eqb_spec b a); [congruence | reflexivity].
Qed.

Lemma string_prefix_refl (s : string) : String.prefix s s = true.
Proof.
  induction s as [|c s IH]; [reflexivity|].
  rewrite string_prefix_cons, Ascii.eqb_refl. exact IH.
Qed.

(** With no deletion allowed and none made so far, the scan accepts exactly
    the prefixes of what is left of the unit. *)
Lemma can_match_scan_zero (useq : string) : forall tsub,
  can_match_scan useq tsub 0 0 = String.prefix tsub useq.
Proof.
  induction useq as [|a useq IH]; intros [|b tsub]; try reflexivity.
  rewrite string_prefix_cons. simpl.
  destruct (Ascii.eqb a b); [apply IH | reflexivity].
Qed.

(** X2: with [dmax = 0], [can_match] accepts a slice exactly when the slice is a
    prefix of the sequence of the unit: the whole sequence, but also every
    shorter prefix, the empty one included. *)
Theorem can_match_dmax_zero (unit : BasicUnit) (slice : string) :
  BasicUnit.dmax unit = 0 ->
  can_match unit slice = String.prefix slice (BasicUnit.sequence unit).
Proof. intros H. unfold can_match. rewrite H. apply can_match_scan_zero. Qed.

Lemma can_match_dmax_zero_witness :
  can_match (BasicUnit.new "ACGT" 10 0) "AC" = String.prefix "AC" "ACGT".
Proof. apply (can_match_dmax_zero (BasicUnit.new "ACGT" 10 0) "AC"). reflexivity. Defined.

Lemma can_match_scan_negative (useq : string) : forall tsub d dmax,
  0 <= d -> dmax < 0 -> can_match_scan useq tsub d dmax = false.
Proof.
  induction useq as [|a useq IH]; intros tsub d dmax Hd Hneg.
  - simpl. destruct (Z.gtb_spec (d + Z.of_nat (String.length tsub)) dmax);
      [reflexivity | lia].
  - destruct tsub as [|b tsub].
    + rewrite can_match_scan_empty. destruct (Z.gtb_spec d dmax); [reflexivity | lia].
    + simpl. destruct (Ascii.eqb a b); [now apply IH|].
      destruct (Z.gtb_spec (d + 1) dmax); [reflexivity | lia].
Qed.

(** X3: a unit with a negative [dmax] matches no slice at all, not even its own
    sequence. *)
Theorem can_match_negative_dmax (unit : BasicUnit) (slice : string) :
  BasicUnit.dmax unit < 0 -> can_match unit slice = false.
Proof. intros H. unfold can_match. now apply can_match_scan_negative. Qed.

Lemma can_match_negative_dmax_witness :
  can_match (BasicUnit.new "ACGT" 10 (-1)) "ACGT" = false.
Proof.
  apply (can_match_negative_dmax (BasicUnit.new "ACGT" 10 (-1)) "ACGT").
  simpl. lia.
Defined.

Lemma can_match_scan_prefix (useq : string) : forall tsub d dmax,
  String.prefix tsub useq = true -> d <= dmax ->
  can_match_scan useq tsub d dmax = true.
Proof.
  induction useq as [|a useq IH]; intros tsub d dmax Hpre Hd.
  - apply string_prefix_nil_r in Hpre as ->. simpl.
    destruct (Z.gtb_spec (d + Z.of_nat 0) dmax); [lia | reflexivity].
  - destruct tsub as [|b tsub].
    + rewrite can_match_scan_empty. destruct (Z.gtb_spec d dmax); [lia | reflexivity].
    + rewrite string_prefix_cons in Hpre. apply andb_true_iff in Hpre as [Hab Hpre].
      simpl. rewrite Hab. now apply IH.
Qed.

(** X4: every prefix of the sequence of a unit with a non-negative [dmax] is
    accepted, however many symbols of the unit come after it. *)
Theorem can_match_prefix (unit : BasicUnit) (slice : string) :
  0 <= BasicUnit.dmax unit ->
  String.prefix slice (BasicUnit.sequence unit) = true ->
  can_match unit slice = true.
Proof. intros Hd Hpre. unfold can_match. now apply can_match_scan_prefix. Qed.

Lemma can_match_prefix_witness :
  can_match (BasicUnit.new "ACGTACGT" 10 1) "AC" = true.
Proof.
  apply (can_match_prefix (BasicUnit.new "ACGTACGT" 10 1) "AC");
    [simpl; lia | reflexivity].
Defined.

(** X5: a unit matches its own sequence exactly when its [dmax] is not
    negative. *)
Theorem can_match_own_sequence (unit : BasicUnit) :
  can_match unit (BasicUnit.sequence unit) = (0 <=? BasicUnit.dmax unit).
Proof.
  unfold can_match. destruct (Z.leb_spec 0 (BasicUnit.dmax unit)).
  - apply can_match_scan_prefix; [apply string_prefix_refl | assumption].
  - apply can_match_scan_negative; lia.
Qed.

Lemma can_match_scan_accepts (useq : string) : forall tsub d dmax,
  can_match_scan useq tsub d dmax = true ->
  exists s1 s2,
    tsub = String.append s1 s2
    /\ list_ascii_of_string s1 `sublist_of` list_ascii_of_string useq
    /\ d + Z.of_nat (String.length s2) <= dmax.
Proof.
  induction useq as [|a useq IH]; intros tsub d dmax H.
  - exists "", tsub. split; [reflexivity|]. split; [apply sublist_nil_l|].
    simpl in H.
    destruct (Z.gtb_spec (d + Z.of_nat (String.length tsub)) dmax);
      [discriminate | assumption].
  - destruct tsub as [|b tsub].
    + exists "", "". split; [reflexivity|]. split; [apply sublist_nil_l|].
      rewrite can_match_scan_empty in H.
      destruct (Z.gtb_spec d dmax); [discriminate | simpl; lia].
    + simpl in H. destruct (Ascii.eqb_spec a b) as [->|Hne].
      * apply IH in H as (s1 & s2 & -> & Hsub & Hle).
        exists (String b s1), s2. split; [reflexivity|].
        split; [simpl; now apply sublist_skip | assumption].
      * destruct (Z.gtb_spec (d + 1) dmax); [discriminate|].
        apply IH in H as (s1 & s2 & Heq & Hsub & Hle).
        exists s1, s2. split; [exact Heq|].
        split; [simpl; now apply sublist_cons | lia].
Qed.

(** X6: whatever [can_match] accepts is a subsequence of the unit followed by at
    most [dmax] further symbols: it never accepts a slice that is more than
    [dmax] symbols away from what deletions alone can produce. *)
Theorem can_match_accepts (unit : BasicUnit) (slice : string) :
  can_match unit slice = true ->
  exists s1 s2,
    slice = String.append s1 s2
    /\ list_ascii_of_string s1
         `sublist_of` list_ascii_of_string (BasicUnit.sequence unit)
    /\ Z.of_nat (String.length s2) <= BasicUnit.dmax unit.
Proof.
  intros H. apply can_match_scan_accepts in H as (s1 & s2 & Heq & Hsub & Hle).
  exists s1, s2. repeat split; [exact Heq | exact Hsub | lia].
Qed.

Lemma can_match_accepts_witness :
  exists s1 s2,
    "CGTT" = String.append s1 s2
    /\ list_ascii_of_string s1 `sublist_of` list_ascii_of_string "ACGT"
    /\ Z.of_nat (String.length s2) <= 2.
Proof.
  apply (can_match_accepts (BasicUnit.new "ACGT" 10 2) "CGTT"). reflexivity.
Defined.

(** ** Slices of a string *)

Section Slices.

Implicit Types x y z r : string.

Lemma string_length_append x y :
  String.length (String.append x y) = (String.length x + String.length y)%nat.
Proof. induction x as [|c x IH]; simpl; [reflexivity | now rewrite IH]. Qed.

Lemma string_append_nil_r x : String.append x "" = x.
Proof. induction x as [|c x IH]; simpl; [reflexivity | now rewrite IH]. Qed.

Lemma string_append_assoc x y z :
  String.append (String.append x y) z = String.append x (String.append y z).
Proof. induction x as [|c x IH]; simpl; [reflexivity | now rewrite IH]. Qed.

Lemma string_length_zero x : String.length x = 0%nat -> x = "".
Proof. destruct x; [reflexivity | discriminate]. Qed.

(** [(x + r)[len(x) : len(x) + l]] is [r[0:l]]. *)
Lemma substring_skip x r (l : nat) :
  substring (String.length x) l (String.append x r) = substring 0 l r.
Proof. induction x as [|c x IH]; simpl; [reflexivity | exact IH]. Qed.

(** [(y + z)[0 : len(y)]] is [y]. *)
Lemma substring_prefix_app y z :
  substring 0 (String.length y) (String.append y z) = y.
Proof.
  induction y as [|c y IH]; simpl; [now destruct z | now rewrite IH].
Qed.

(** [r[0:l]] has [l] symbols and starts [r], when [l <= len(r)]. *)
Lemma substring_take (l : nat) : forall r,
  (l <= String.length r)%nat ->
  String.length (substring 0 l r) = l
  /\ exists r', r = String.append (substring 0 l r) r'.
Proof.
  induction l as [|l IH]; intros r Hl.
  - split; [now destruct r|]. exists r. now destruct r.
  - destruct r as [|c r]; simpl in Hl; [lia|].
    destruct (IH r) as (Hlen & r' & Hr'); [lia|].
    simpl. split; [now rewrite Hlen|]. exists r'. now rewrite <- Hr'.
Qed.

End Slices.

(** ** Assemblies, piece by piece *)

Lemma assembled_app (a b : assembly) :
  assembled (a ++ b)%list = String.append (assembled a) (assembled b).
Proof.
  induction a as [|p a IH]; simpl; [reflexivity|].
  now rewrite IH, string_append_assoc.
Qed.

Lemma total_cost_app (a b : assembly) :
  total_cost (a ++ b)%list = total_cost a + total_cost b.
Proof. induction a as [|p a IH]; simpl; [reflexivity | rewrite IH; lia]. Qed.

Lemma unit_count_app (a b : assembly) :
  unit_count (a ++ b)%list = unit_count a + unit_count b.
Proof. unfold unit_count. rewrite length_app. lia. Qed.

Lemma score_snoc (a : assembly) (unit : BasicUnit) (slice : string) :
  score (a ++ [(unit, slice)])%list
  = (Int (total_cost a + BasicUnit.cost unit), Int (unit_count a + 1)).
Proof.
  unfold score. rewrite total_cost_app, unit_count_app. simpl.
  now rewrite Z.add_0_r.
Qed.

(** Every piece has at least one symbol, so there are no more pieces than
    symbols, and at least one piece when there is a symbol. *)
Lemma accepted_pieces_count (catalog : list BasicUnit) (a : assembly) :
  Forall (accepted_piece catalog) a ->
  unit_count a <= Z.of_nat (String.length (assembled a))
  /\ (assembled a <> "" -> 1 <= unit_count a).
Proof.
  unfold unit_count. induction 1 as [|p a Hp Ha IH]; simpl.
  - split; [lia | congruence].
  - destruct Hp as (_ & Hne & _). rewrite string_length_append.
    assert (String.length (snd p) <> 0%nat)
      by (intros H0; now apply string_length_zero in H0).
    lia.
Qed.

Lemma covers_all (target : string) (catalog : list BasicUnit) (a : assembly) :
  covers target catalog (String.length target) a
  <-> accepted_assembly target catalog a.
Proof.
  split.
  - intros (Hall & rest & Heq & Hlen). split; [exact Hall|].
    assert (rest = "") as ->.
    { apply string_length_zero.
      apply (f_equal String.length) in Heq.
      rewrite string_length_append in Heq. lia. }
    now rewrite string_append_nil_r in Heq.
  - intros (Hall & <-). split; [exact Hall|]. exists "".
    now rewrite string_append_nil_r.
Qed.

(** A prefix covered by pieces grows by one accepted slice. *)
Lemma covers_snoc (target : string) (catalog : list BasicUnit)
    (unit : BasicUnit) (i j : nat) (a : assembly) :
  covers target catalog j a -> unit ∈ catalog ->
  (i - String.length (BasicUnit.sequence unit) <= j)%nat ->
  (j < i <= String.length target)%nat ->
  can_match unit (substring j (i - j) target) = true ->
  covers target catalog i (a ++ [(unit, substring j (i - j) target)])%list.
Proof.
  intros (Hall & rest & Heq & Hlen) Hin Hstart Hji Hmatch.
  assert (Hrest : (i - j <= String.length rest)%nat).
  { apply (f_equal String.length) in Heq.
    rewrite string_length_append in Heq. lia. }
  destruct (substring_take (i - j) rest Hrest) as (Hl & r' & Hr').
  assert (Hslice : substring j (i - j) target = substring 0 (i - j) rest).
  { rewrite <- Heq, <- Hlen. apply substring_skip. }
  split.
  - apply Forall_app. split; [exact Hall|]. apply Forall_singleton.
    unfold accepted_piece. simpl. rewrite Hslice, Hl.
    repeat split; [exact Hin | | lia | now rewrite <- Hslice].
    intros H0. apply (f_equal String.length) in H0. simpl in H0. lia.
  - exists r'. rewrite assembled_app. simpl. rewrite string_append_nil_r.
    rewrite string_length_append, Hslice, Hl, string_append_assoc, <- Hr'.
    split; [exact Heq | lia].
Qed.

(** Taking the last piece off leaves a shorter covered prefix, and the slice
    taken off is the one the sweep reads there. *)
Lemma covers_snoc_inv (target : string) (catalog : list BasicUnit)
    (k : nat) (a : assembly) (p : BasicUnit * string) :
  covers target catalog k (a ++ [p])%list ->
  let j := String.length (assembled a) in
  covers target catalog j a /\ accepted_piece catalog p
  /\ (k = j + String.length (snd p))%nat
  /\ (k <= String.length target)%nat
  /\ substring j (k - j) target = snd p.
Proof.
  intros (Hall & rest & Heq & Hlen). cbv zeta.
  apply Forall_app in Hall as (Hall & Hp). apply Forall_inv in Hp.
  rewrite assembled_app in Heq, Hlen. simpl in Heq, Hlen.
  rewrite string_append_nil_r in Heq, Hlen.
  rewrite string_length_append in Hlen.
  rewrite string_append_assoc in Heq.
  split; [split; [exact Hall | eauto]|]. split; [exact Hp|].
  split; [lia|]. split.
  - apply (f_equal String.length) in Heq.
    rewrite !string_length_append in Heq. lia.
  - rewrite <- Heq, substring_skip.
    replace (k - String.length (assembled a))%nat
      with (String.length (snd p)) by lia.
    apply substring_prefix_app.
Qed.

(** ** More on the order of entries *)

Lemma num_trichotomy (x y : num) :
  num_ltb x y = true \/ x = y \/ num_ltb y x = true.
Proof.
  destruct x as [x|], y as [y|]; simpl; auto.
  destruct (Z.ltb_spec x y); [now left|].
  destruct (Z.ltb_spec y x); [now right; right|].
  right; left. f_equal. lia.
Qed.

Lemma lex_trichotomy (a b : num * num) :
  lex_ltb a b = true \/ a = b \/ lex_ltb b a = true.
Proof.
  destruct a as [a1 a2], b as [b1 b2]. rewrite !lex_ltb_true. simpl.
  destruct (num_trichotomy a1 b1) as [H|[->|H]]; auto.
  destruct (num_trichotomy a2 b2) as [H|[->|H]]; auto.
Qed.

(** [a <= b] and [b <= c] give [a <= c], with [x <= y] read as "[y] does
    not beat [x]". *)
Lemma lex_le_trans (a b c : num * num) :
  lex_ltb b a = false -> lex_ltb c b = false -> lex_ltb c a = false.
Proof.
  intros Hba Hcb. destruct (lex_ltb c a) eqn:Hca; [|reflexivity].
  destruct (lex_trichotomy a b) as [Hab|[->|Hab]]; [|congruence|congruence].
  rewrite (lex_ltb_trans _ _ _ Hca Hab) in Hcb. discriminate.
Qed.

(** Adding a unit on both sides keeps the order. *)
Lemma lex_add_mono (c u cost : Z) (e : num * num) :
  lex_ltb (Int c, Int u) e = false ->
  lex_ltb (Int (c + cost), Int (u + 1))
    (num_add (fst e) cost, num_add (snd e) 1) = false.
Proof.
  destruct e as [[x|] [y|]]; unfold lex_ltb; simpl; try discriminate;
    repeat match goal with
           | |- context [?a <? ?b] => destruct (Z.ltb_spec a b)
           | |- context [?a =? ?b] => destruct (Z.eqb_spec a b)
           end; simpl; intros Hle; try reflexivity; try discriminate; lia.
Qed.

Lemma lex_ltb_int (c u P U : Z) :
  lex_ltb (Int c, Int u) (Int P, Int U) = false <->
  P < c \/ (P = c /\ U <= u).
Proof.
  unfold lex_ltb. simpl.
  rewrite orb_false_iff, andb_false_iff, !Z.ltb_ge, Z.eqb_neq. lia.
Qed.

(** ** Which slices are tried *)

Lemma tries_elem (i : nat) (units : list BasicUnit) (unit : BasicUnit) (j : nat) :
  (unit, j) ∈ tries i units <->
  unit ∈ units
  /\ (i - String.length (BasicUnit.sequence unit) <= j < i)%nat.
Proof.
  unfold tries. rewrite list_elem_of_In, in_flat_map. split.
  - intros (u & Hu & Hin). apply in_map_iff in Hin as (j' & Heq & Hj).
    injection Heq as -> ->. apply in_seq in Hj.
    split; [now apply list_elem_of_In | simpl in Hj; lia].
  - intros (Hu & Hj). exists unit. split; [now apply list_elem_of_In|].
    apply in_map, in_seq. simpl. lia.
Qed.

(** ** What the tables hold during the sweep *)

Lemma init_inv (target : string) (catalog : list BasicUnit) :
  sweep_inv target catalog (init target catalog).
Proof.
  assert (E0 : entry (init target catalog) 0 = (Int 0, Int 0)).
  { unfold entry, init. simpl.
    now rewrite !list_lookup_total_insert_eq
      by (rewrite length_replicate; lia). }
  unfold sweep_inv. repeat split; try reflexivity; try apply init_wf.
  - exact E0.
  - intros k Hk. simpl in Hk. destruct k as [|k].
    + right. exists []. split; [|exact E0].
      split; [constructor|]. exists target. split; reflexivity.
    + left. unfold entry, init. simpl dp_cost. simpl dp_units.
      rewrite !list_lookup_total_insert_ne by lia.
      now rewrite !lookup_total_replicate_2 by lia.
Qed.

Lemma relax_inv (target : string) (catalog : list BasicUnit)
    (unit : BasicUnit) (i j : nat) (self : Solution) :
  sweep_inv target catalog self -> unit ∈ catalog ->
  (i - String.length (BasicUnit.sequence unit) <= j)%nat ->
  (j < i <= String.length target)%nat ->
  sweep_inv target catalog (relax unit i j self).
Proof.
  intros (Ht & Hb & Hn & Hwf & H0 & Hreach) Hin Hstart Hji.
  pose proof (relax_frame unit i j self) as (Ht' & Hb' & Hn' & _ & He).
  unfold sweep_inv. rewrite Ht', Hb', Hn'.
  split; [exact Ht|]. split; [exact Hb|]. split; [exact Hn|].
  split; [now apply relax_wf|]. split.
  - rewrite He by lia. exact H0.
  - intros k Hk. destruct (Nat.eq_dec k i) as [->|Hne];
      [|rewrite He by assumption; now apply Hreach].
    rewrite relax_entry by (assumption || lia). rewrite Ht.
    destruct (can_match unit _) eqn:Hmatch; simpl; [|now apply Hreach].
    destruct (lex_ltb _ _); [|now apply Hreach].
    destruct (Hreach j) as [Hj|(a & Hcov & Hj)]; [lia| |].
    + left. unfold candidate. unfold entry in Hj. injection Hj as -> ->.
      reflexivity.
    + right. exists (a ++ [(unit, substring j (i - j) target)])%list.
      split; [now apply covers_snoc|].
      rewrite score_snoc. unfold candidate. unfold entry, score in Hj.
      injection Hj as -> ->. reflexivity.
Qed.

Lemma relax_tries_inv (target : string) (catalog : list BasicUnit) (i : nat)
    (l : list (BasicUnit * nat)) : forall self,
  (1 <= i <= String.length target)%nat ->
  (forall p, p ∈ l -> p ∈ tries i catalog) ->
  sweep_inv target catalog self ->
  sweep_inv target catalog (fold_left (relax_try i) l self).
Proof.
  induction l as [|p l IH]; intros self Hi Hl Hinv; simpl; [exact Hinv|].
  apply IH; [exact Hi | intros q Hq; apply Hl; now right |].
  assert (Hp : p ∈ tries i catalog) by (apply Hl; left).
  destruct p as [unit j]. apply tries_elem in Hp as (Hin & Hj).
  apply relax_inv; simpl; try assumption; lia.
Qed.

Lemma solve_pos_inv (target : string) (catalog : list BasicUnit) (i : nat)
    (self : Solution) :
  (1 <= i <= String.length target)%nat ->
  sweep_inv target catalog self ->
  sweep_inv target catalog (solve_pos self i).
Proof.
  intros Hi Hinv. rewrite solve_pos_tries.
  apply relax_tries_inv; [exact Hi | | exact Hinv].
  destruct Hinv as (_ & -> & _). auto.
Qed.

Lemma solve_pass_inv (target : string) (catalog : list BasicUnit)
    (self : Solution) :
  sweep_inv target catalog self ->
  sweep_inv target catalog (solve_pass self).
Proof.
  intros Hinv. unfold solve_pass.
  assert (Hn : n self = String.length target) by apply Hinv. rewrite Hn.
  assert (H : forall l, (forall i, In i l -> (1 <= i <= String.length target)%nat) ->
                forall s, sweep_inv target catalog s ->
                          sweep_inv target catalog (fold_left solve_pos l s)).
  { induction l as [|i l IH]; intros Hl s Hs; simpl; [exact Hs|].
    apply IH; [intros i' Hi'; apply Hl; now right|].
    apply solve_pos_inv; [apply Hl; now left | exact Hs]. }
  apply H; [|exact Hinv]. intros i Hi. apply in_seq in Hi. lia.
Qed.

(** On tables where every position is settled, no pieces covering a prefix
    score below the entry of that prefix. *)
Lemma settled_optimal (target : string) (catalog : list BasicUnit)
    (self : Solution) :
  sweep_inv target catalog self ->
  (forall i, (1 <= i <= n self)%nat -> settled self i) ->
  forall a k, covers target catalog k a ->
    lex_ltb (score a) (entry self k) = false.
Proof.
  intros (Ht & Hb & Hn & Hwf & H0 & _) Hs.
  induction a as [|p a IH] using rev_ind; intros k Hcov.
  - destruct Hcov as (_ & rest & _ & <-). simpl. rewrite H0.
    apply lex_ltb_irrefl.
  - apply covers_snoc_inv in Hcov as (Hcov & Hp & Hk & Hkn & Hslice).
    destruct p as [unit slice]. destruct Hp as (Hin & Hne & Hlen & Hmatch).
    simpl in *. set (j := String.length (assembled a)) in *.
    assert (Hslen : String.length slice <> 0%nat)
      by (intros Hz; now apply string_length_zero in Hz).
    specialize (IH j Hcov).
    assert (Htry : (unit, j) ∈ tries k (basic_units self))
      by (rewrite Hb; apply tries_elem; split; [exact Hin | lia]).
    specialize (Hs k ltac:(lia) (unit, j) Htry). simpl in Hs.
    rewrite Ht, Hslice in Hs. specialize (Hs Hmatch).
    rewrite score_snoc.
    eapply lex_le_trans; [exact Hs|].
    apply (lex_add_mono _ _ (BasicUnit.cost unit) (entry self j)). exact IH.
Qed.

(** ** What [solve] returns, in terms of what [can_match] accepts *)

(** The object left by [solve] on a fresh object. *)
Lemma solve_fresh (target : string) (catalog : list BasicUnit) :
  let self := fst (solve (init target catalog)) in
  sweep_inv target catalog self
  /\ (forall i, (1 <= i <= String.length target)%nat -> settled self i)
  /\ run target catalog =
       if num_eqb (fst (entry self (String.length target))) Inf
       then (None, None)
       else (Some (fst (entry self (String.length target))),
             Some (snd (entry self (String.length target)))).
Proof.
  cbv zeta. unfold run, solve. simpl.
  pose proof (solve_pass_inv target catalog _ (init_inv target catalog)) as Hinv.
  split; [exact Hinv|]. split.
  - intros i Hi. apply solve_pass_settled; [apply init_wf | exact Hi].
  - unfold solve_result. destruct Hinv as (_ & _ & -> & _). reflexivity.
Qed.

Lemma run_table_meaning (target : string) (catalog : list BasicUnit)
    (k : nat) :
  (k <= String.length target)%nat ->
  let self := fst (solve (init target catalog)) in
  reached target catalog k (entry self k)
  /\ forall a, covers target catalog k a ->
       lex_ltb (score a) (entry self k) = false.
Proof.
  intros Hk. destruct (solve_fresh target catalog) as (Hinv & Hs & _).
  cbv zeta. split.
  - destruct Hinv as (_ & _ & Hn & _ & _ & Hreach). apply Hreach. lia.
  - intros a Ha. apply (settled_optimal target catalog); try assumption.
    intros i Hi. apply Hs. destruct Hinv as (_ & _ & Hn & _). lia.
Qed.

(** X7: the comments on the two tables, for the tables [solve] leaves: the
    entry at [k] is the score of accepted pieces covering the first [k]
    symbols of the target, or infinite, and no accepted pieces covering
    those symbols score below it. *)
Theorem solve_table_meaning (target : string) (catalog : list BasicUnit)
    (k : nat) :
  (k <= String.length target)%nat ->
  let self := fst (solve (init target catalog)) in
  reached target catalog k (entry self k)
  /\ forall a, covers target catalog k a ->
       lex_ltb (score a) (entry self k) = false.
Proof. exact (run_table_meaning target catalog k). Qed.

Lemma solve_table_meaning_witness :
  let self := fst (solve (init "ACGT" example2_units)) in
  reached "ACGT" example2_units 2 (entry self 2)
  /\ forall a, covers "ACGT" example2_units 2 a ->
       lex_ltb (score a) (entry self 2) = false.
Proof.
  apply (solve_table_meaning "ACGT" example2_units 2). simpl. lia.
Defined.

Lemma run_achieved (target : string) (catalog : list BasicUnit)
    (P U : num) :
  run target catalog = (Some P, Some U) ->
  exists a, accepted_assembly target catalog a
            /\ P = Int (total_cost a) /\ U = Int (unit_count a).
Proof.
  destruct (solve_fresh target catalog) as (Hinv & _ & ->).
  destruct (run_table_meaning target catalog (String.length target))
    as ([Hr|(a & Hcov & Hr)] & _); [lia | |]; cbv zeta in Hr; rewrite Hr; simpl.
  - discriminate.
  - intros [= <- <-]. exists a. split; [now apply covers_all | split; reflexivity].
Qed.

(** X8: a pair returned by [solve] is the cost and the number of units of an
    assembly of accepted pieces. *)
Theorem solve_achieved (target : string) (catalog : list BasicUnit)
    (P U : num) :
  run target catalog = (Some P, Some U) ->
  exists a, accepted_assembly target catalog a
            /\ P = Int (total_cost a) /\ U = Int (unit_count a).
Proof. exact (run_achieved target catalog P U). Qed.

Lemma solve_achieved_witness :
  exists a, accepted_assembly "ACGT" example2_units a
            /\ Int 10 = Int (total_cost a) /\ Int 1 = Int (unit_count a).
Proof.
  apply (solve_achieved "ACGT" example2_units (Int 10) (Int 1)).
  vm_compute. reflexivity.
Defined.

Lemma run_optimal (target : string) (catalog : list BasicUnit)
    (a : assembly) :
  accepted_assembly target catalog a ->
  exists P U, run target catalog = (Some (Int P), Some (Int U))
              /\ (P < total_cost a \/ (P = total_cost a /\ U <= unit_count a)).
Proof.
  intros Ha. apply covers_all in Ha.
  destruct (solve_fresh target catalog) as (_ & _ & ->).
  destruct (run_table_meaning target catalog (String.length target))
    as (Hr & Hopt); [lia|]. cbv zeta in Hr, Hopt. specialize (Hopt a Ha).
  destruct Hr as [Hr|(a0 & _ & Hr)]; rewrite Hr in Hopt |- *.
  - discriminate.
  - simpl. exists (total_cost a0), (unit_count a0). split; [reflexivity|].
    now apply lex_ltb_int.
Qed.



Lemma run_no_solution_iff (target : string) (catalog : list BasicUnit) :
  run target catalog = (None, None)
  <-> ~ exists a, accepted_assembly target catalog a.
Proof.
  split.
  - intros Hrun [a Ha]. apply run_optimal in Ha as (P & U & HPU & _).
    congruence.
  - intros Hno. destruct (solve_fresh target catalog) as (_ & _ & ->).
    destruct (run_table_meaning target catalog (String.length target))
      as ([Hr|(a & Hcov & _)] & _); [lia | |].
    + cbv zeta in Hr. now rewrite Hr.
    + exfalso. apply Hno. exists a. now apply covers_all.
Qed.


Lemma run_result_shape (target : string) (catalog : list BasicUnit) :
  run target catalog = (None, None)
  \/ exists P U, run target catalog = (Some (Int P), Some (Int U))
                 /\ 0 <= U <= Z.of_nat (String.length target)
                 /\ (target <> "" -> 1 <= U).
Proof.
  destruct (run target catalog) as [[P|] [U|]] eqn:Hrun.
  - right. apply run_achieved in Hrun as (a & (Hall & Heq) & -> & ->).
    exists (total_cost a), (unit_count a). split; [reflexivity|].
    destruct (accepted_pieces_count catalog a Hall) as (Hle & Hge).
    rewrite Heq in Hle, Hge. unfold unit_count in *. split; [lia | exact Hge].
  - exfalso. destruct (solve_fresh target catalog) as (_ & _ & Hr).
    rewrite Hrun in Hr. destruct (num_eqb _ _); discriminate.
  - exfalso. destruct (solve_fresh target catalog) as (_ & _ & Hr).
    rewrite Hrun in Hr. destruct (num_eqb _ _); discriminate.
  - now left.
Qed.


(** ** Consequences for callers *)

Lemma exact_is_accepted (target : string) (catalog : list BasicUnit)
    (a : assembly) :
  exact_assembly target catalog a -> accepted_assembly target catalog a.
Proof.
  intros (Hall & Heq). split; [|exact Heq].
  eapply Forall_impl; [exact Hall|]. intros p (Hin & Hne & Htrim).
  repeat split; [exact Hin | exact Hne | | now apply can_match_complete].
  destruct Htrim as (Hsub & _). apply sublist_length in Hsub.
  now rewrite !length_list_ascii_of_string in Hsub.
Qed.

(** X12: whenever the target has an exact assembly (every slice really obtained
    from its unit within [dmax] deletions), [solve] returns a pair, and the
    pair is no worse than that assembly: [solve] may undercut the true
    optimum but never misses it and never exceeds it. *)
Theorem solve_bounded_by_exact (target : string) (catalog : list BasicUnit)
    (a : assembly) :
  exact_assembly target catalog a ->
  exists P U, run target catalog = (Some (Int P), Some (Int U))
              /\ (P < total_cost a \/ (P = total_cost a /\ U <= unit_count a)).
Proof. intros Ha. now apply run_optimal, exact_is_accepted. Qed.

Lemma solve_bounded_by_exact_witness :
  exists P U, run "ACGTACGTA" example1_units = (Some (Int P), Some (Int U))
              /\ (P < 22 \/ (P = 22 /\ U <= 3)).
Proof.
  apply (solve_bounded_by_exact "ACGTACGTA" example1_units
           [ (BasicUnit.new "ACGT" 10 1, "ACGT");
             (BasicUnit.new "ACGT" 10 1, "ACGT");
             (BasicUnit.new "A" 2 0, "A") ]).
  split; [|reflexivity].
  repeat constructor; simpl; try discriminate; try lia.
Defined.

Lemma accepted_assembly_mono (target : string) (c1 c2 : list BasicUnit)
    (a : assembly) :
  (forall u, u ∈ c1 -> u ∈ c2) ->
  accepted_assembly target c1 a -> accepted_assembly target c2 a.
Proof.
  intros Hsub (Hall & Heq). split; [|exact Heq].
  eapply Forall_impl; [exact Hall|]. intros p (Hin & Hrest).
  split; [now apply Hsub | exact Hrest].
Qed.

Lemma run_catalog_mono (target : string) (c1 c2 : list BasicUnit)
    (P1 U1 : Z) :
  (forall u, u ∈ c1 -> u ∈ c2) ->
  run target c1 = (Some (Int P1), Some (Int U1)) ->
  exists P2 U2, run target c2 = (Some (Int P2), Some (Int U2))
                /\ (P2 < P1 \/ (P2 = P1 /\ U2 <= U1)).
Proof.
  intros Hsub Hrun. apply run_achieved in Hrun as (a & Ha & HP & HU).
  injection HP as ->. injection HU as ->.
  apply run_optimal. now apply (accepted_assembly_mono target c1).
Qed.

(** X13: adding units to the catalog never makes the answer worse: a solution
    stays a solution, at a cost no higher, and at equal cost with no more
    units. *)
Theorem solve_catalog_mono (target : string) (c1 c2 : list BasicUnit)
    (P1 U1 : Z) :
  (forall u, u ∈ c1 -> u ∈ c2) ->
  run target c1 = (Some (Int P1), Some (Int U1)) ->
  exists P2 U2, run target c2 = (Some (Int P2), Some (Int U2))
                /\ (P2 < P1 \/ (P2 = P1 /\ U2 <= U1)).
Proof. exact (run_catalog_mono target c1 c2 P1 U1). Qed.

Lemma solve_catalog_mono_witness :
  exists P2 U2, run "A" catalog_A_AC = (Some (Int P2), Some (Int U2))
                /\ (P2 < 1 \/ (P2 = 1 /\ U2 <= 1)).
Proof.
  apply (solve_catalog_mono "A" catalog_AC catalog_A_AC 1 1);
    [|reflexivity].
  intros u Hu. apply list_elem_of_singleton in Hu as ->.
  unfold catalog_A_AC. right. left.
Defined.

(** X14: the answer depends on the catalog as a set only: the order of the units
    and repeated units make no difference. *)
Theorem solve_catalog_set (target : string) (c1 c2 : list BasicUnit) :
  (forall u, u ∈ c1 <-> u ∈ c2) ->
  run target c1 = run target c2.
Proof.
  intros Hset.
  assert (H12 : forall u, u ∈ c1 -> u ∈ c2) by (intros u; apply Hset).
  assert (H21 : forall u, u ∈ c2 -> u ∈ c1) by (intros u; apply Hset).
  destruct (run_result_shape target c1) as [E1|(P1 & U1 & E1 & _)];
    destruct (run_result_shape target c2) as [E2|(P2 & U2 & E2 & _)].
  - congruence.
  - destruct (run_catalog_mono target c2 c1 P2 U2 H21 E2) as (? & ? & E & _).
    congruence.
  - destruct (run_catalog_mono target c1 c2 P1 U1 H12 E1) as (? & ? & E & _).
    congruence.
  - destruct (run_catalog_mono target c1 c2 P1 U1 H12 E1) as (P & U & E & Hle).
    destruct (run_catalog_mono target c2 c1 P2 U2 H21 E2) as (P' & U' & E' & Hle').
    rewrite E1 in E'. rewrite E2 in E.
    injection E as <- <-. injection E' as <- <-.
    rewrite E1, E2. repeat f_equal; lia.
Qed.

Lemma solve_catalog_set_witness :
  run "ACGT" example2_units = run "ACGT" (reverse example2_units ++ example2_units)%list.
Proof.
  apply (solve_catalog_set "ACGT" example2_units
           (reverse example2_units ++ example2_units)%list).
  intros u. rewrite elem_of_app, elem_of_reverse. tauto.
Defined.

(** X15: with an empty catalog a non-empty target has no solution. *)
Theorem solve_empty_catalog (target : string) :
  target <> "" -> run target [] = (None, None).
Proof.
  intros Hne. apply run_no_solution_iff. intros [a (Hall & Heq)].
  destruct a as [|p a]; [simpl in Heq; congruence|].
  apply Forall_inv in Hall as (Hin & _). inversion Hin.
Qed.

Lemma solve_empty_catalog_witness : run "ACGT" [] = (None, None).
Proof. apply (solve_empty_catalog "ACGT"). discriminate. Defined.

Lemma single_unit_cost (unit : BasicUnit) (a : assembly) :
  Forall (accepted_piece [unit]) a ->
  total_cost a = unit_count a * BasicUnit.cost unit.
Proof.
  unfold unit_count. induction 1 as [|p a Hp Ha IH]; [reflexivity|].
  destruct Hp as (Hin & _). apply list_elem_of_singleton in Hin.
  simpl total_cost. rewrite IH, Hin. simpl List.length. lia.
Qed.

(** X16: a catalog made of one unit whose sequence is the target, with a
    non-negative cost and a non-negative [dmax], gives that cost with 1
    unit. *)
Theorem solve_single_exact_unit (target : string) (cost dmax : Z) :
  target <> "" -> 0 <= cost -> 0 <= dmax ->
  run target [BasicUnit.new target cost dmax] = (Some (Int cost), Some (Int 1)).
Proof.
  intros Hne Hcost Hdmax. set (unit := BasicUnit.new target cost dmax).
  assert (Ha : accepted_assembly target [unit] [(unit, target)]).
  { split; [|simpl; apply string_append_nil_r].
    apply Forall_singleton. repeat split; simpl; [left | exact Hne | lia |].
    unfold can_match.
    apply can_match_scan_prefix; [apply string_prefix_refl | exact Hdmax]. }
  apply run_optimal in Ha as (P & U & Hrun & Hle).
  pose proof Hrun as Hach.
  apply run_achieved in Hach as (a & (Hall & Heq) & HP & HU).
  injection HP as HP. injection HU as HU.
  pose proof (single_unit_cost unit a Hall) as Hc.
  destruct (accepted_pieces_count [unit] a Hall) as (_ & Hge).
  rewrite Heq in Hge. specialize (Hge Hne).
  simpl in Hle, Hc. rewrite Z.add_0_r in Hle.
  change (unit_count [(unit, target)]) with 1 in Hle.
  rewrite Hrun. repeat f_equal; nia.
Qed.

Lemma solve_single_exact_unit_witness :
  run "ACGT" [BasicUnit.new "ACGT" 10 0] = (Some (Int 10), Some (Int 1)).
Proof.
  apply (solve_single_exact_unit "ACGT" 10 0); [discriminate | lia | lia].
Defined.

(** X17: with no negative cost in the catalog the returned cost is not
    negative. *)
Theorem solve_cost_nonneg (target : string) (catalog : list BasicUnit)
    (P : Z) (U : num) :
  (forall u, u ∈ catalog -> 0 <= BasicUnit.cost u) ->
  run target catalog = (Some (Int P), Some U) -> 0 <= P.
Proof.
  intros Hpos Hrun. apply run_achieved in Hrun as (a & (Hall & _) & HP & _).
  injection HP as ->. induction Hall as [|p a Hp Ha IH]; simpl; [lia|].
  destruct Hp as (Hin & _). specialize (Hpos _ Hin). lia.
Qed.

Lemma solve_cost_nonneg_witness :
  run "ACGT" example2_units = (Some (Int 10), Some (Int 1)) /\ 0 <= 10.
Proof.
  split; [reflexivity|].
  apply (solve_cost_nonneg "ACGT" example2_units 10 (Int 1)); [|reflexivity].
  intros u Hu. unfold example2_units in Hu.
  repeat (apply elem_of_cons in Hu as [->|Hu]; [simpl; lia|]).
  inversion Hu.
Defined.

(** X18: [solve] leaves the inputs of the object as they were, keeps the two
    tables at [n + 1] cells and never writes their cell 0. *)
Theorem solve_keeps_object (target : string) (catalog : list BasicUnit) :
  let self := fst (solve (init target catalog)) in
  target_sequence self = target
  /\ basic_units self = catalog
  /\ n self = String.length target
  /\ List.length (dp_cost self) = S (String.length target)
  /\ List.length (dp_units self) = S (String.length target)
  /\ dp_cost self !!! 0%nat = Int 0
  /\ dp_units self !!! 0%nat = Int 0.
Proof.
  destruct (solve_fresh target catalog)
    as ((Ht & Hb & Hn & (Hc & Hu) & H0 & _) & _).
  cbv zeta. rewrite Hn in Hc, Hu. unfold entry in H0. injection H0 as Hc0 Hu0.
  repeat split; assumption.
Qed.

(** * The sweep with Python's [OverflowError] *)

(** ** One addition *)

Lemma py_add_returns (a b : num) (z : Z) :
  py_add a z = Returns b -> b = num_add a z.
Proof.
  destruct a as [x|]; simpl; [congruence|].
  destruct (float_convertible z); [congruence | discriminate].
Qed.

Lemma py_add_convertible (a : num) (z : Z) :
  float_convertible z = true -> py_add a z = Returns (num_add a z).
Proof. intros H. destruct a as [x|]; simpl; [reflexivity | now rewrite H]. Qed.

(** [prev_units + 1] never raises. *)
Lemma py_add_one (a : num) : py_add a 1 = Returns (num_add a 1).
Proof. now apply py_add_convertible. Qed.

(** ** One step *)

(** A step that returns has done what [relax] does. *)
Lemma relax_checked_returns (unit : BasicUnit) (i j : nat)
    (self self' : Solution) :
  relax_checked unit i j self = Returns self' -> self' = relax unit i j self.
Proof.
  unfold relax_checked, relax.
  destruct (can_match unit _); [|congruence].
  destruct (py_add _ _); [congruence | discriminate].
Qed.

(** A step with a safe unit returns. *)
Lemma relax_checked_safe (unit : BasicUnit) (i j : nat) (self : Solution) :
  unit_safe unit ->
  relax_checked unit i j self = Returns (relax unit i j self).
Proof.
  intros Hsafe. unfold relax_checked, relax.
  destruct (can_match unit _) eqn:Hmatch; [|reflexivity].
  destruct Hsafe as [Hconv|Hneg].
  - now rewrite py_add_convertible.
  - unfold can_match in Hmatch.
    rewrite can_match_scan_negative in Hmatch by lia. discriminate.
Qed.

(** ** The loops *)

Lemma for_each_returns {A : Type} (checked : Solution -> A -> outcome Solution)
    (body : Solution -> A -> Solution) (l : list A) :
  (forall self x self', checked self x = Returns self' -> self' = body self x) ->
  forall self self',
    for_each checked l self = Returns self' -> self' = fold_left body l self.
Proof.
  intros Hbody. induction l as [|x l IH]; intros self self' H; simpl in *.
  - congruence.
  - destruct (checked self x) as [s1|] eqn:Hx; [|discriminate].
    apply Hbody in Hx as ->. now apply IH.
Qed.

Lemma for_each_safe {A : Type} (Q : Solution -> Prop)
    (checked : Solution -> A -> outcome Solution)
    (body : Solution -> A -> Solution) (l : list A) :
  (forall self x, In x l -> Q self ->
     checked self x = Returns (body self x) /\ Q (body self x)) ->
  forall self, Q self ->
    for_each checked l self = Returns (fold_left body l self).
Proof.
  induction l as [|x l IH]; intros Hbody self HQ; simpl; [reflexivity|].
  destruct (Hbody self x) as (-> & HQ'); [now left | exact HQ |].
  apply IH; [|exact HQ']. intros s y Hy. apply Hbody. now right.
Qed.

Lemma solve_unit_checked_returns (i : nat) (self self' : Solution)
    (unit : BasicUnit) :
  solve_unit_checked i self unit = Returns self' ->
  self' = solve_unit i self unit.
Proof.
  unfold solve_unit_checked, solve_unit. apply for_each_returns.
  intros s j s'. apply relax_checked_returns.
Qed.

Lemma solve_pos_checked_returns (self self' : Solution) (i : nat) :
  solve_pos_checked self i = Returns self' -> self' = solve_pos self i.
Proof.
  unfold solve_pos_checked, solve_pos. apply for_each_returns.
  intros s u s'. apply solve_unit_checked_returns.
Qed.

Lemma solve_pass_checked_returns (self self' : Solution) :
  solve_pass_checked self = Returns self' -> self' = solve_pass self.
Proof.
  unfold solve_pass_checked, solve_pass. apply for_each_returns.
  intros s i s'. apply solve_pos_checked_returns.
Qed.

(** Whenever [solve] returns, it returns what the sweep without the error
    computes. *)
Lemma solve_checked_returns (self : Solution)
    (r : Solution * (option num * option num)) :
  solve_checked self = Returns r -> r = solve self.
Proof.
  unfold solve_checked, solve.
  destruct (solve_pass_checked self) as [s|] eqn:Hs; [|discriminate].
  apply solve_pass_checked_returns in Hs as ->. congruence.
Qed.

Lemma run_checked_returns (target : string) (catalog : list BasicUnit)
    (r : option num * option num) :
  run_checked target catalog = Returns r -> r = run target catalog.
Proof.
  unfold run_checked, run.
  destruct (solve_checked _) as [p|] eqn:Hp; [|discriminate].
  apply solve_checked_returns in Hp as ->. congruence.
Qed.

Lemma solve_unit_checked_safe (i : nat) (self : Solution) (unit : BasicUnit) :
  unit_safe unit ->
  solve_unit_checked i self unit = Returns (solve_unit i self unit).
Proof.
  intros Hsafe. unfold solve_unit_checked, solve_unit.
  apply (for_each_safe (fun _ => True)); [|exact I].
  intros s j _ _. split; [now apply relax_checked_safe | exact I].
Qed.

Lemma solve_pos_checked_safe (self : Solution) (i : nat) :
  Forall unit_safe (basic_units self) ->
  solve_pos_checked self i = Returns (solve_pos self i).
Proof.
  intros Hsafe. unfold solve_pos_checked, solve_pos.
  apply (for_each_safe (fun _ => True)); [|exact I].
  intros s u Hu _. split; [|exact I]. apply solve_unit_checked_safe.
  rewrite Forall_forall in Hsafe. now apply Hsafe, list_elem_of_In.
Qed.

(** The sweep of one position keeps the catalog. *)
Lemma solve_pos_units (self : Solution) (i : nat) :
  basic_units (solve_pos self i) = basic_units self.
Proof.
  rewrite solve_pos_tries. generalize (tries i (basic_units self)) as l.
  intros l. revert self. induction l as [|p l IH]; intros self; simpl;
    [reflexivity|].
  rewrite IH. unfold relax_try.
  now destruct (relax_frame (fst p) i (snd p) self) as (_ & Hb & _).
Qed.

Lemma solve_pass_checked_safe (self : Solution) :
  Forall unit_safe (basic_units self) ->
  solve_pass_checked self = Returns (solve_pass self).
Proof.
  intros Hsafe. unfold solve_pass_checked, solve_pass.
  apply (for_each_safe (fun s => Forall unit_safe (basic_units s)));
    [|exact Hsafe].
  intros s i _ Hs. split; [now apply solve_pos_checked_safe|].
  now rewrite solve_pos_units.
Qed.

(** With only safe units [solve] raises nothing. *)
Lemma solve_checked_safe (self : Solution) :
  Forall unit_safe (basic_units self) ->
  solve_checked self = Returns (solve self).
Proof.
  intros Hsafe. unfold solve_checked, solve.
  now rewrite solve_pass_checked_safe.
Qed.

Lemma run_checked_safe (target : string) (catalog : list BasicUnit) :
  Forall unit_safe catalog ->
  run_checked target catalog = Returns (run target catalog).
Proof.
  intros Hsafe. unfold run_checked, run.
  now rewrite solve_checked_safe.
Qed.

Lemma costs_convertible_safe (catalog : list BasicUnit) :
  costs_convertible catalog -> Forall unit_safe catalog.
Proof.
  intros H. eapply Forall_impl; [exact H|]. intros u Hu. now left.
Qed.

(** A cost too large for a float makes [solve] raise as soon as it is added
    to an unreached entry. *)
Example solve_raises :
  run_checked "CA" [BasicUnit.new "A" (10 ^ 400) 0] = OverflowError.
Proof. vm_compute. reflexivity. Qed.

(** ** What [solve] returns when it cannot raise *)



(** X11: when every cost of the catalog converts to a float, [solve] raises
    nothing and returns either no solution or two integers, never one of the
    two and never an infinite value; the number of units is at most the
    length of the target, and at least 1 for a non-empty target. *)
Theorem solve_result_shape (target : string) (catalog : list BasicUnit) :
  costs_convertible catalog ->
  run_checked target catalog = Returns (None, None)
  \/ exists P U, run_checked target catalog = Returns (Some (Int P), Some (Int U))
                 /\ 0 <= U <= Z.of_nat (String.length target)
                 /\ (target <> "" -> 1 <= U).
Proof.
  intros Hconv. rewrite run_checked_safe by now apply costs_convertible_safe.
  destruct (run_result_shape target catalog) as [->|(P & U & -> & HU)];
    [now left | right; eauto].
Qed.

Lemma solve_result_shape_witness :
  run_checked "ACGT" example2_units = Returns (None, None)
  \/ exists P U, run_checked "ACGT" example2_units
                 = Returns (Some (Int P), Some (Int U))
                 /\ 0 <= U <= Z.of_nat (String.length "ACGT")
                 /\ ("ACGT" <> "" -> 1 <= U).
Proof.
  apply (solve_result_shape "ACGT" example2_units). repeat constructor.
Defined.

(** ** Inputs the specification calls malformed, again *)





